(** * Gem Match Wolf: the board-resolution engine of [GameScene]

    A shallow embedding of the game logic of the [GameScene] class: match
    detection, power-up creation and activation, gravity, the no-moves
    oracle and the move counter.

    The repository carries two versions of the class.  This file embeds
    the one whose [PowerUpType] is ['horizontal-rocket' | 'vertical-rocket'
    | 'tnt' | 'light-ball' | null], whose [triggerPowerUp] takes the cell
    alone and whose [decrementMoves] ends the game.  The later version
    under [bejeweled/] renames the light ball to [color-bomb] and adds the
    fly-away, a tnt pattern, chain activation and [executeCombination].

    The scene keeps a matrix [board : Cell[][]] of references to mutable
    [Cell] objects.  The embedding keeps that shape: a [Scene] carries a
    store of cells and a matrix of references into the store, and every
    method of the class becomes a function from scenes to scenes.
    Rendering (sprites, tweens, sounds) is left out; only the fields the
    game logic reads and writes are kept. *)

From Stdlib Require Import ZArith String List Bool Lia.
From stdpp Require Import base list.
Import ListNotations.

Set Default Proof Using "Type".

(** * The program *)

(** ** Constants *)

(** Modelled from the spec: [NUMBER_OF_CELLS_PER_ROW] of [./constants] (the
    file is not part of the sources); the data model fixes the grid to
    N x N with N = 8. *)
Definition size : nat := 8.

(** [explosionThreshold]: number of cells required to trigger an explosion. *)
Definition explosionThreshold : nat := 3.


(** ** Cells *)

(** [PowerUpType] without its [null] member; [null] is [None] below. *)
Inductive PowerUpType : Type :=
  | horizontal_rocket
  | vertical_rocket
  | tnt
  | light_ball.

(** The string a [PowerUpType] value is in the source. *)
Definition powerUpName (p : PowerUpType) : string :=
  match p with
  | horizontal_rocket => "horizontal-rocket"
  | vertical_rocket => "vertical-rocket"
  | tnt => "tnt"
  | light_ball => "light-ball"
  end%string.

(** [type Cell]; [color] is [null] in a freshly created cell. *)
Record Cell : Type := mkCell {
  row : nat;
  column : nat;
  color : option string;
  empty : bool;
  powerup : option PowerUpType
}.

Definition set_row (r : nat) (c : Cell) : Cell :=
  mkCell r (column c) (color c) (empty c) (powerup c).
Definition set_column (k : nat) (c : Cell) : Cell :=
  mkCell (row c) k (color c) (empty c) (powerup c).
Definition set_empty (b : bool) (c : Cell) : Cell :=
  mkCell (row c) (column c) (color c) b (powerup c).
Definition set_powerup (p : option PowerUpType) (c : Cell) : Cell :=
  mkCell (row c) (column c) (color c) (empty c) p.

(** [===] on two [color] fields. *)
Definition color_eqb (x y : option string) : bool :=
  match x, y with
  | Some a, Some b => String.eqb a b
  | None, None => true
  | _, _ => false
  end.

(** Truthiness of a [color] field: neither [null] nor the empty string. *)
Definition truthy (x : option string) : bool :=
  match x with
  | Some a => negb (String.eqb a EmptyString)
  | None => false
  end.

(** Truthiness of a [powerup] field. *)
Definition hasPowerup (c : Cell) : bool :=
  match powerup c with Some _ => true | None => false end.

(** ** The scene *)

(** A reference to a [Cell] object is its index in the store. *)
Abbreviation ref := nat (only parsing).

Record Scene : Type := mkScene {
  heap : list Cell;
  board : list (list ref);
  score : Z;
  moves : Z;
  isGameOver : bool;
  (** how many values [Phaser.Math.RND] has handed out so far *)
  draws : nat
}.

(** What a dangling reference reads; no reference of a well-formed scene
    dangles. *)
Definition nullCell : Cell := mkCell 0 0 None true None.

(** [deref s c]: the object a reference points to. *)
Definition deref (s : Scene) (c : ref) : Cell := default nullCell (heap s !! c).

(** [m[r][k]] and [m[r][k] = c] on an array of arrays.  Out of range the
    source would throw; the positions used on a well-formed scene are in
    range. *)
Definition matrixGet (m : list (list ref)) (r k : nat) : ref :=
  default 0 (default [] (m !! r) !! k).

Definition matrixSet (m : list (list ref)) (r k : nat) (c : ref) : list (list ref) :=
  <[r := <[k := c]> (default [] (m !! r))]> m.

(** [this.board[r][k]] *)
Definition cellAt (s : Scene) (r k : nat) : ref := matrixGet (board s) r k.

Definition with_heap (h : list Cell) (s : Scene) : Scene :=
  mkScene h (board s) (score s) (moves s) (isGameOver s) (draws s).
Definition with_board (b : list (list ref)) (s : Scene) : Scene :=
  mkScene (heap s) b (score s) (moves s) (isGameOver s) (draws s).

(** A field assignment [c.f = v] on the object behind [c]. *)
Definition assign (f : Cell -> Cell) (c : ref) (s : Scene) : Scene :=
  with_heap (<[c := f (deref s c)]> (heap s)) s.

(** [this.board[r][k] = c] *)
Definition setCellAt (r k : nat) (c : ref) (s : Scene) : Scene :=
  with_board (matrixSet (board s) r k c) s.

(** A [for] loop over [l] whose body is [body]. *)
Definition forEach {A : Type} (l : list A) (body : A -> Scene -> Scene)
    (s : Scene) : Scene :=
  fold_left (fun acc x => body x acc) l s.

(** [createEmptyBoard]: the cell of row [r] and column [k] is the object
    number [r * n + k]. *)
Definition createEmptyBoard (n : nat) : list Cell * list (list ref) :=
  (flat_map (fun r => map (fun k => mkCell r k None true None) (seq 0 n)) (seq 0 n),
   map (fun r => map (fun k => r * n + k) (seq 0 n)) (seq 0 n)).

(** ** Moves and score *)





(** ** Swapping two cells *)

Definition swapCells (firstCell secondCell : ref) (s : Scene) : Scene :=
  let firstCellCopy := deref s firstCell in
  let s := assign (set_row (row (deref s secondCell))) firstCell s in
  let s := assign (set_column (column (deref s secondCell))) firstCell s in
  let s := assign (set_row (row firstCellCopy)) secondCell s in
  let s := assign (set_column (column firstCellCopy)) secondCell s in
  let s := setCellAt (row (deref s firstCell)) (column (deref s firstCell)) firstCell s in
  setCellAt (row (deref s secondCell)) (column (deref s secondCell)) secondCell s.

Definition cellsAreNeighbours (s : Scene) (cell1 cell2 : ref) : bool :=
  let c1 := deref s cell1 in
  let c2 := deref s cell2 in
  (Nat.eqb (row c1) (row c2)
     && (Nat.eqb (column c1) (column c2 + 1) || Nat.eqb (column c1 + 1) (column c2)))
  || (Nat.eqb (column c1) (column c2)
     && (Nat.eqb (row c1) (row c2 + 1) || Nat.eqb (row c1 + 1) (row c2))).

(** ** Match detection *)

(** The inner loop of [shouldExplodeHorizontally]: the cells of the window
    starting at [startPosition] all have the colour of their right
    neighbour. *)
Definition windowExplodes (s : Scene) (at_ : nat -> ref) (startPosition : nat) : bool :=
  forallb
    (fun index =>
       color_eqb (color (deref s (at_ index))) (color (deref s (at_ (index + 1)))))
    (seq startPosition (explosionThreshold - 1)).

(** The outer loop shared by [shouldExplodeHorizontally] and
    [shouldExplodeVertically]: [position] is the cell's column (row), and
    [startPosition] runs from [position - explosionThreshold + 1] to
    [position]; it may be negative, hence [Z]. *)
Definition shouldExplodeAlong (s : Scene) (at_ : nat -> ref) (position : nat) : bool :=
  existsb
    (fun offset =>
       let startPosition := (Z.of_nat position - Z.of_nat explosionThreshold + 1
                             + Z.of_nat offset)%Z in
       let endPosition := (startPosition + Z.of_nat explosionThreshold - 1)%Z in
       (0 <=? startPosition)%Z && (endPosition <? Z.of_nat size)%Z
       && windowExplodes s at_ (Z.to_nat startPosition))
    (seq 0 explosionThreshold).

Definition shouldExplodeHorizontally (s : Scene) (c : ref) : bool :=
  shouldExplodeAlong s (fun index => cellAt s (row (deref s c)) index)
    (column (deref s c)).

Definition shouldExplodeVertically (s : Scene) (c : ref) : bool :=
  shouldExplodeAlong s (fun index => cellAt s index (column (deref s c)))
    (row (deref s c)).

Definition shouldExplode (s : Scene) (c : ref) : bool :=
  if hasPowerup (deref s c) then false
  else shouldExplodeHorizontally s c || shouldExplodeVertically s c.

Definition boardShouldExplode (s : Scene) : bool :=
  existsb (fun r => existsb (fun c => shouldExplode s c) r) (board s).

(** ** Power-up activation *)

Definition getNeighbors (s : Scene) (c : ref) : list ref :=
  let r := row (deref s c) in
  let k := column (deref s c) in
  (if 0 <? r then [cellAt s (r - 1) k] else [])
  ++ (if r <? size - 1 then [cellAt s (r + 1) k] else [])
  ++ (if 0 <? k then [cellAt s r (k - 1)] else [])
  ++ (if k <? size - 1 then [cellAt s r (k + 1)] else []).

Definition getAdjacentGemColor (s : Scene) (c : ref) : option string :=
  match
    find (fun neighbor =>
            negb (empty (deref s neighbor))
            && negb (hasPowerup (deref s neighbor))
            && truthy (color (deref s neighbor)))
         (getNeighbors s c)
  with
  | Some neighbor => color (deref s neighbor)
  | None => None
  end.

Definition triggerPowerUp (cell : ref) (s : Scene) : Scene :=
  match powerup (deref s cell) with
  | None => s
  | Some powerUpType =>
      let s := assign (set_powerup None) cell s in
      let s := assign (set_empty true) cell s in
      match powerUpType with
      | horizontal_rocket =>
          forEach (seq 0 size)
            (fun col s => assign (set_empty true) (cellAt s (row (deref s cell)) col) s) s
      | vertical_rocket =>
          forEach (seq 0 size)
            (fun r s => assign (set_empty true) (cellAt s r (column (deref s cell))) s) s
      | light_ball =>
          let targetColor := getAdjacentGemColor s cell in
          if truthy targetColor then
            forEach (seq 0 size) (fun r =>
              forEach (seq 0 size) (fun col s =>
                if color_eqb (color (deref s (cellAt s r col))) targetColor
                then assign (set_empty true) (cellAt s r col) s
                else s)) s
          else s
      | tnt => s
      end
  end.

(** ** Gravity *)

(** The loop of [getLowestEmptyCellBelow], the row [r] running down from
    [size - 1] while [r > cell.row]; [None] is [null]. *)
Definition getLowestEmptyCellBelow (s : Scene) (cell : ref) : option ref :=
  find (fun belowCell => empty (deref s belowCell))
    (map (fun r => cellAt s r (column (deref s cell)))
       (filter (fun r => row (deref s cell) < r) (rev (seq 0 size)))).

Definition makeCellsFall (s : Scene) : Scene :=
  forEach (seq 0 size) (fun k =>
    forEach (rev (seq 0 size)) (fun r s =>
      let cell := cellAt s r k in
      match getLowestEmptyCellBelow s cell with
      | Some lowestEmptyCell =>
          if negb (empty (deref s cell)) then swapCells cell lowestEmptyCell s else s
      | None => s
      end)) s.

(** ** Chains *)

(** [Phaser.Utils.Array.Matrix.TransposeMatrix], of the Phaser library:
    line [k] of the result is column [k] of [m], and the result has as
    many lines as the first line of [m] has cells. *)
Definition TransposeMatrix (m : list (list ref)) : list (list ref) :=
  map (fun k => map (fun r => matrixGet m r k) (seq 0 (length m)))
    (seq 0 (length (default [] (m !! 0)))).

(** The inner [while] of [getExplodingChainsOnLine]: the first [j >= j0]
    that is past the end of the line or whose cell has another colour than
    cell [i]. *)
Fixpoint scanRun (s : Scene) (line : list ref) (i j0 fuel : nat) : nat :=
  match fuel with
  | 0 => j0
  | S fuel' =>
      if (j0 <? length line)
         && color_eqb (color (deref s (default 0 (line !! j0))))
                      (color (deref s (default 0 (line !! i))))
      then scanRun s line i (j0 + 1) fuel'
      else j0
  end.

(** [line.slice(i, j)] *)
Definition slice {A : Type} (i j : nat) (l : list A) : list A :=
  take (j - i) (drop i l).

(** The outer [while]; every turn increases [i], so [length line] turns are
    enough. *)
Fixpoint chainsFrom (s : Scene) (line : list ref) (i fuel : nat) : list (list ref) :=
  match fuel with
  | 0 => []
  | S fuel' =>
      if i <? length line then
        let j := scanRun s line i (i + 1) (length line) in
        let chain := slice i j line in
        if explosionThreshold <=? length chain
        then chain :: chainsFrom s line j fuel'
        else chainsFrom s line (i + 1) fuel'
      else []
  end.

Definition getExplodingChainsOnLine (s : Scene) (line : list ref) : list (list ref) :=
  chainsFrom s line 0 (length line).

Definition getExplodingChains (s : Scene) : list (list ref) :=
  let rows := board s in
  let columns := TransposeMatrix (board s) in
  flat_map (getExplodingChainsOnLine s) (rows ++ columns).

Definition getCellsToDestroy (s : Scene) : list ref :=
  List.filter (fun cell =>
                 (shouldExplode s cell || empty (deref s cell))
                 && negb (hasPowerup (deref s cell)))
    (concat (board s)).


(** ** Power-up creation *)



(** ** The no-moves oracle *)

Definition Move : Type := (ref * ref)%type.

(** One trial swap: swap, test, swap back. *)
Definition trySwap (cell other : ref) (st : Scene * list Move) : Scene * list Move :=
  let '(s, winningMoves) := st in
  let s := swapCells cell other s in
  let winningMoves :=
    if boardShouldExplode s then winningMoves ++ [(cell, other)] else winningMoves in
  (swapCells cell other s, winningMoves).

Definition getWinningMoves (s : Scene) : Scene * list Move :=
  fold_left (fun st r =>
    fold_left (fun st k =>
      let cell := cellAt (fst st) r k in
      let right := cellAt (fst st) r (k + 1) in
      let down := cellAt (fst st) (r + 1) k in
      trySwap cell down (trySwap cell right st))
      (seq 0 (size - 1)) st)
    (seq 0 (size - 1)) (s, []).

(** ** Destruction and refill *)


Section Game.

(** [Phaser.Math.RND.pick]: what the generator picks from an array at its
    [n]-th use.  The generator is seeded by the host. *)
Variable RND_pick : nat -> list string -> string.


(** The [while] of [refillBoard]: the number of empty cells at the top of
    column [k]. *)
Fixpoint numberOfEmptyCells (s : Scene) (k : nat) (n fuel : nat) : nat :=
  match fuel with
  | 0 => n
  | S fuel' =>
      if (n <? size) && empty (deref s (cellAt s n k))
      then numberOfEmptyCells s k (n + 1) fuel'
      else n
  end.












End Game.

(** * Vocabulary of the statements *)

(** ** Building a scene *)

(** A cell description: colour, power-up, empty flag. *)
Definition gem (x : string) : option string * option PowerUpType * bool :=
  (Some x, None, false).

(** A power-up as [createPowerUpsFromChains] leaves it: its colour is the
    name of its type. *)
Definition booster (p : PowerUpType) : option string * option PowerUpType * bool :=
  (Some (powerUpName p), Some p, false).

(** The scene whose board shows the given cells, the cell of row [r] and
    column [k] being the object number [r * size + k]; a new game's score
    and moves. *)
Definition sceneOf (grid : list (list (option string * option PowerUpType * bool))) : Scene :=
  mkScene
    (concat (imap (fun r line =>
               imap (fun k d => mkCell r k (fst (fst d)) (snd d) (snd (fst d))) line) grid))
    (imap (fun r line => imap (fun k _ => r * size + k) line) grid)
    0 30 false 0.

(** ** Well-formed scenes *)

(** The board is a [size] x [size] matrix, and the cell stored at a position
    knows that position.  [createEmptyBoard] establishes this and
    [swapCells], the one method that moves cells, keeps it. *)
Record wf (s : Scene) : Prop := mkWf {
  wf_rows : length (board s) = size;
  wf_columns : forall r line, board s !! r = Some line -> length line = size;
  wf_live : forall r k, r < size -> k < size -> cellAt s r k < length (heap s);
  wf_row : forall r k, r < size -> k < size -> row (deref s (cellAt s r k)) = r;
  wf_column : forall r k, r < size -> k < size -> column (deref s (cellAt s r k)) = k
}.

(** [c] is the cell of some position of the board. *)
Definition onBoard (s : Scene) (c : ref) : Prop :=
  row (deref s c) < size /\ column (deref s c) < size
  /\ cellAt s (row (deref s c)) (column (deref s c)) = c.

(** ** Marking cells empty *)


(** The fields of a cell other than [empty]. *)
Definition sameButEmpty (c c' : Cell) : Prop :=
  row c' = row c /\ column c' = column c /\ color c' = color c /\ powerup c' = powerup c.

(** ** What a power-up destroys *)


Definition columnCells (s : Scene) (k : nat) : list ref :=
  map (fun r => cellAt s r k) (seq 0 size).



(** The activated cell itself: its power-up is cleared and it is marked. *)
Definition consume (cell : ref) (s : Scene) : Scene :=
  assign (set_empty true) cell (assign (set_powerup None) cell s).

(** ** Checking a concrete scene *)

Definition wfb (s : Scene) : bool :=
  Nat.eqb (length (board s)) size
  && forallb (fun line : list ref => Nat.eqb (length line) size) (board s)
  && forallb (fun r =>
       forallb (fun k =>
         (cellAt s r k <? length (heap s))
         && Nat.eqb (row (deref s (cellAt s r k))) r
         && Nat.eqb (column (deref s (cellAt s r k))) k)
         (seq 0 size))
       (seq 0 size).

(** ** Swapping *)

(** A cell moved to row [r] and column [k]. *)
Definition moveTo (r k : nat) (c : Cell) : Cell := set_column k (set_row r c).

(** ** Gravity *)

(** The body of the inner loop of [makeCellsFall]. *)
Definition fallStep (k r : nat) (s : Scene) : Scene :=
  let cell := cellAt s r k in
  match getLowestEmptyCellBelow s cell with
  | Some lowestEmptyCell =>
      if negb (empty (deref s cell)) then swapCells cell lowestEmptyCell s else s
  | None => s
  end.

(** Two scenes hold the same cells, perhaps at other positions. *)
Definition sameContent (s0 s : Scene) : Prop :=
  length (heap s) = length (heap s0)
  /\ forall c, color (deref s c) = color (deref s0 c)
               /\ empty (deref s c) = empty (deref s0 c)
               /\ powerup (deref s c) = powerup (deref s0 c).

Definition nonEmptyIn (s : Scene) (c : ref) : bool := negb (empty (deref s c)).

(** Rows [j] and below of column [k] are compacted: empty cells first, then
    the cells that were not empty at the start, in the order of the start. *)
Definition settled (s0 s : Scene) (k j : nat) : Prop :=
  exists m, j <= m <= size
    /\ (forall r, j <= r < m -> empty (deref s (cellAt s r k)) = true)
    /\ map (fun r => cellAt s r k) (seq m (size - m))
       = List.filter (nonEmptyIn s0) (map (fun r => cellAt s0 r k) (seq j (size - j))).

(** The inner loop of [makeCellsFall] on column [k], about to visit row
    [j - 1]. *)
Record falling (s0 s : Scene) (k j : nat) : Prop := mkFalling {
  falling_wf : wf s;
  falling_content : sameContent s0 s;
  falling_columns : forall r k', k' <> k -> cellAt s r k' = cellAt s0 r k';
  falling_above : forall r, r < j -> cellAt s r k = cellAt s0 r k;
  falling_settled : settled s0 s k j
}.

(** Column [k] is compacted, with respect to the scene [s0] gravity
    started from. *)
Definition compacted (s0 s : Scene) (k : nat) : Prop :=
  exists m, m <= size
    /\ (forall r, r < m -> empty (deref s (cellAt s r k)) = true)
    /\ map (fun r => cellAt s r k) (seq m (size - m))
       = List.filter (nonEmptyIn s0) (columnCells s0 k).

(** [makeCellsFall] after its outer loop has visited the columns before
    [n]. *)
Record fallen (s0 s : Scene) (n : nat) : Prop := mkFallen {
  fallen_wf : wf s;
  fallen_content : sameContent s0 s;
  fallen_todo : forall r k, n <= k -> cellAt s r k = cellAt s0 r k;
  fallen_done : forall k, k < n -> compacted s0 s k
}.

(** ** Power-up creation *)





(** ** The move counter *)



(** ** Concrete boards *)

Definition B : option string * option PowerUpType * bool := gem "blue".
Definition G : option string * option PowerUpType * bool := gem "green".
Definition O : option string * option PowerUpType * bool := gem "orange".
Definition R : option string * option PowerUpType * bool := gem "red".

(** An emptied cell; its stale colour is of no interest. *)
Definition hole : option string * option PowerUpType * bool := (Some "blue"%string, None, true).

Definition HR : option string * option PowerUpType * bool := booster horizontal_rocket.
Definition VR : option string * option PowerUpType * bool := booster vertical_rocket.
Definition LB : option string * option PowerUpType * bool := booster light_ball.





(** Three horizontal rockets in a line at row 4, columns 2 to 4. *)
Definition threeRocketsBoard : Scene := sceneOf
  [[B; O; B; O; B; O; B; O];
   [G; R; G; R; G; R; G; R];
   [O; B; O; B; O; B; O; B];
   [R; G; R; G; R; G; R; G];
   [B; O; HR; HR; HR; O; B; O];
   [G; R; G; R; G; R; G; R];
   [O; B; O; B; O; B; O; B];
   [R; G; R; G; R; G; R; G]].

(** A light ball at row 4, column 4, between two emptied cells and two
    rockets. *)
Definition lonelyBallBoard : Scene := sceneOf
  [[B; O; B; O; B; O; B; O];
   [G; R; G; R; G; R; G; R];
   [O; B; O; B; O; B; O; B];
   [R; G; R; G; hole; G; R; G];
   [B; O; B; VR; LB; hole; B; O];
   [G; R; G; R; HR; R; G; R];
   [O; B; O; B; O; B; O; B];
   [R; G; R; G; R; G; R; G]].

(** [plainBoard] with a green gem at row 7, column 0: swapping the cells
    of columns 2 and 3 of the last row lines up three green gems. *)
Definition lastRowBoard : Scene := sceneOf
  [[B; O; B; O; B; O; B; O];
   [G; R; G; R; G; R; G; R];
   [O; B; O; B; O; B; O; B];
   [R; G; R; G; R; G; R; G];
   [B; O; B; O; B; O; B; O];
   [G; R; G; R; G; R; G; R];
   [O; B; O; B; O; B; O; B];
   [G; G; R; G; R; G; R; G]].

(** Emptied cells at rows 0 and 2 of column 0, which reads
    [empty, gem, empty, gem, ...] from the top. *)
Definition holesBoard : Scene := sceneOf
  [[hole; O; B; O; B; O; B; O];
   [G; R; G; R; G; R; G; R];
   [hole; B; O; B; O; B; O; B];
   [R; G; R; G; R; G; R; G];
   [B; O; B; O; B; O; B; O];
   [G; R; G; R; G; R; G; R];
   [O; B; O; B; O; B; O; B];
   [R; G; R; G; R; G; R; G]].



(** ** The claims the code does not meet, as stated *)





(** ** The claims on concrete boards *)


(** * Properties *)

(** ** Reading and writing the store *)


Lemma heap_assign f c s : heap (assign f c s) = <[c := f (deref s c)]> (heap s).
Proof. reflexivity. Qed.

Lemma length_heap_assign f c s : length (heap (assign f c s)) = length (heap s).
Proof. unfold assign. simpl. apply length_insert. Qed.


Lemma deref_assign_eq f c s :
  c < length (heap s) -> deref (assign f c s) c = f (deref s c).
Proof.
  intros Hc. unfold deref at 1, assign. simpl.
  rewrite list_lookup_insert_eq by exact Hc. reflexivity.
Qed.

Lemma deref_assign_ne f c c' s : c <> c' -> deref (assign f c s) c' = deref s c'.
Proof.
  intros Hne. unfold deref, assign. simpl.
  rewrite list_lookup_insert_ne by exact Hne. reflexivity.
Qed.

Lemma deref_assign f c c' s :
  deref (assign f c s) c' =
  if decide (c = c' /\ c < length (heap s)) then f (deref s c) else deref s c'.
Proof.
  destruct (decide (c = c' /\ c < length (heap s))) as [[-> Hlt]|Hn].
  - apply deref_assign_eq, Hlt.
  - destruct (decide (c = c')) as [->|Hne].
    + unfold deref, assign. simpl.
      rewrite list_insert_ge by lia. reflexivity.
    + apply deref_assign_ne, Hne.
Qed.

Lemma heap_setCellAt r k c s : heap (setCellAt r k c s) = heap s.
Proof. reflexivity. Qed.

Lemma deref_setCellAt r k c s c' : deref (setCellAt r k c s) c' = deref s c'.
Proof. reflexivity. Qed.

Lemma forEach_nil {A} (body : A -> Scene -> Scene) s : forEach [] body s = s.
Proof. reflexivity. Qed.

Lemma forEach_cons {A} (body : A -> Scene -> Scene) x l s :
  forEach (x :: l) body s = forEach l body (body x s).
Proof. reflexivity. Qed.

Lemma forEach_app {A} (body : A -> Scene -> Scene) l1 l2 s :
  forEach (l1 ++ l2) body s = forEach l2 body (forEach l1 body s).
Proof. unfold forEach. apply fold_left_app. Qed.



(** ** Well-formed scenes *)

Lemma onBoard_cellAt s r k : wf s -> r < size -> k < size -> onBoard s (cellAt s r k).
Proof.
  intros Hwf Hr Hk. unfold onBoard.
  rewrite (wf_row s Hwf r k Hr Hk), (wf_column s Hwf r k Hr Hk). auto.
Qed.

Lemma onBoard_live s c : wf s -> onBoard s c -> c < length (heap s).
Proof.
  intros Hwf (Hr & Hk & Hc). rewrite <- Hc. apply (wf_live s Hwf); assumption.
Qed.

Lemma cellAt_inj s r k r' k' :
  wf s -> r < size -> k < size -> r' < size -> k' < size ->
  cellAt s r k = cellAt s r' k' -> r = r' /\ k = k'.
Proof.
  intros Hwf Hr Hk Hr' Hk' Heq. split.
  - rewrite <- (wf_row s Hwf r k Hr Hk), Heq. apply (wf_row s Hwf); assumption.
  - rewrite <- (wf_column s Hwf r k Hr Hk), Heq. apply (wf_column s Hwf); assumption.
Qed.

(** ** Marking cells empty *)

Lemma set_empty_idem b c : set_empty b (set_empty b c) = set_empty b c.
Proof. reflexivity. Qed.










Lemma deref_assign_sameButEmpty b c c' s :
  sameButEmpty (deref s c') (deref (assign (set_empty b) c s) c').
Proof.
  rewrite deref_assign. destruct (decide _) as [[-> _]|_]; repeat split; reflexivity.
Qed.

Lemma powerup_live s c p : powerup (deref s c) = Some p -> c < length (heap s).
Proof.
  intros Hp. destruct (decide (c < length (heap s))) as [|Hge]; [assumption|].
  unfold deref in Hp. rewrite lookup_ge_None_2 in Hp by lia. discriminate.
Qed.

(** ** What a power-up destroys *)

Lemma board_consume cell s : board (consume cell s) = board s.
Proof. reflexivity. Qed.

Lemma deref_consume_ne cell c s : cell <> c -> deref (consume cell s) c = deref s c.
Proof.
  intros Hne. unfold consume. rewrite !deref_assign_ne by exact Hne. reflexivity.
Qed.

Lemma deref_consume_eq cell s :
  cell < length (heap s) ->
  deref (consume cell s) cell = set_empty true (set_powerup None (deref s cell)).
Proof.
  intros Hlt. unfold consume.
  rewrite deref_assign_eq by (rewrite length_heap_assign; exact Hlt).
  rewrite deref_assign_eq by exact Hlt. reflexivity.
Qed.

Lemma field_assign {X} (field : Cell -> X) f c c' s :
  (forall x, field (f x) = field x) ->
  field (deref (assign f c s) c') = field (deref s c').
Proof.
  intros Hf. rewrite deref_assign. destruct (decide _) as [[-> _]|_]; auto.
Qed.

Lemma row_consume cell c s : row (deref (consume cell s) c) = row (deref s c).
Proof. unfold consume. rewrite !(field_assign row) by reflexivity. reflexivity. Qed.

Lemma column_consume cell c s : column (deref (consume cell s) c) = column (deref s c).
Proof. unfold consume. rewrite !(field_assign column) by reflexivity. reflexivity. Qed.


Lemma getNeighbors_consume cell c s : getNeighbors (consume cell s) c = getNeighbors s c.
Proof. unfold getNeighbors. rewrite row_consume, column_consume. reflexivity. Qed.






(** ** Checking a concrete scene *)

Lemma wfb_wf s : wfb s = true -> wf s.
Proof.
  unfold wfb. rewrite !andb_true_iff. intros [[Hrows Hcols] Hcells].
  apply Nat.eqb_eq in Hrows. rewrite forallb_forall in Hcols.
  assert (Hcell : forall r k, r < size -> k < size ->
            cellAt s r k < length (heap s)
            /\ row (deref s (cellAt s r k)) = r
            /\ column (deref s (cellAt s r k)) = k).
  { intros r k Hr Hk. rewrite forallb_forall in Hcells.
    specialize (Hcells r). rewrite in_seq in Hcells.
    specialize (Hcells ltac:(lia)). rewrite forallb_forall in Hcells.
    specialize (Hcells k). rewrite in_seq in Hcells.
    specialize (Hcells ltac:(lia)). rewrite !andb_true_iff in Hcells.
    destruct Hcells as [[H1 H2] H3].
    apply Nat.ltb_lt in H1. apply Nat.eqb_eq in H2. apply Nat.eqb_eq in H3. auto. }
  constructor.
  - exact Hrows.
  - intros r line Hline. apply Nat.eqb_eq, Hcols.
    apply list_elem_of_In, (list_elem_of_lookup_2 _ r), Hline.
  - intros r k Hr Hk. apply Hcell; assumption.
  - intros r k Hr Hk. apply Hcell; assumption.
  - intros r k Hr Hk. apply Hcell; assumption.
Qed.

(** The board [initBoard] starts from is well-formed. *)
Lemma wf_createEmptyBoard s :
  wf (with_board (snd (createEmptyBoard size)) (with_heap (fst (createEmptyBoard size)) s)).
Proof. apply wfb_wf. vm_compute. reflexivity. Qed.

(** ** A light ball without a target colour *)

Lemma getAdjacentGemColor_none s s' cell :
  (forall n, n ∈ getNeighbors s cell ->
     empty (deref s' n) || hasPowerup (deref s' n) = true) ->
  getNeighbors s' cell = getNeighbors s cell ->
  getAdjacentGemColor s' cell = None.
Proof.
  intros Hall Hnb. unfold getAdjacentGemColor. rewrite Hnb. clear Hnb.
  induction (getNeighbors s cell) as [|n ns IH]; [reflexivity|].
  cbn [find].
  assert (Hn : empty (deref s' n) || hasPowerup (deref s' n) = true)
    by (apply Hall; apply elem_of_cons; auto).
  destruct (empty (deref s' n)); [|destruct (hasPowerup (deref s' n)); [|discriminate]];
    cbn [negb andb]; try rewrite andb_false_r; cbn [andb];
    apply IH; intros n' Hin; apply Hall; apply elem_of_cons; auto.
Qed.

(** C10.  A light ball all of whose neighbours on the board are empty or
    hold a power-up finds no target colour: [triggerPowerUp] clears its
    power-up, marks it empty, and changes no other cell and no position of
    the board. *)
Theorem light_ball_without_target s cell :
  powerup (deref s cell) = Some light_ball ->
  forallb (fun n => empty (deref s n) || hasPowerup (deref s n)) (getNeighbors s cell)
    = true ->
  deref (triggerPowerUp cell s) cell = set_empty true (set_powerup None (deref s cell))
  /\ (forall c, c <> cell -> deref (triggerPowerUp cell s) c = deref s c)
  /\ board (triggerPowerUp cell s) = board s.
Proof.
  intros Hp Hnb. pose proof (powerup_live s cell _ Hp) as Hlive.
  assert (Heq : triggerPowerUp cell s = consume cell s).
  { unfold triggerPowerUp. rewrite Hp.
    change (assign (set_empty true) cell (assign (set_powerup None) cell s))
      with (consume cell s).
    rewrite (getAdjacentGemColor_none s (consume cell s) cell); [reflexivity| |].
    - intros n Hin. destruct (decide (cell = n)) as [<-|Hne].
      + rewrite deref_consume_eq by exact Hlive. reflexivity.
      + rewrite deref_consume_ne by exact Hne.
        rewrite forallb_forall in Hnb. apply Hnb, list_elem_of_In, Hin.
    - apply getNeighbors_consume. }
  rewrite Heq. split; [|split].
  - apply deref_consume_eq, Hlive.
  - intros c Hne. apply deref_consume_ne. congruence.
  - reflexivity.
Qed.

(** ** What [triggerPowerUp] does to each cell *)





(** ** Arrays of arrays *)

Lemma matrixSet_length m r k c : length (matrixSet m r k c) = length m.
Proof. apply length_insert. Qed.

Lemma matrixSet_lookup m r k c r' :
  matrixSet m r k c !! r' =
  if decide (r = r') then <[k := c]> <$> (m !! r') else m !! r'.
Proof.
  unfold matrixSet. destruct (decide (r = r')) as [<-|Hne].
  - destruct (m !! r) as [line|] eqn:Hline.
    + rewrite list_lookup_insert_eq by (apply lookup_lt_Some in Hline; exact Hline).
      reflexivity.
    + rewrite list_insert_ge by (apply lookup_ge_None in Hline; exact Hline).
      rewrite Hline. reflexivity.
  - apply list_lookup_insert_ne, Hne.
Qed.

Lemma matrixGet_set m r k c r' k' :
  r < length m -> k < length (default [] (m !! r)) ->
  matrixGet (matrixSet m r k c) r' k' =
  if decide (r = r' /\ k = k') then c else matrixGet m r' k'.
Proof.
  intros Hr Hk. unfold matrixGet. rewrite matrixSet_lookup.
  destruct (decide (r = r')) as [<-|Hne].
  - destruct (m !! r) as [line|] eqn:Hline; cbn in *; [|lia].
    destruct (decide (k = k')) as [<-|Hnek].
    + rewrite list_lookup_insert_eq by exact Hk.
      destruct (decide _) as [_|Hn]; [reflexivity | tauto].
    + rewrite list_lookup_insert_ne by exact Hnek.
      destruct (decide _) as [[_ ?]|_]; [contradiction | reflexivity].
  - destruct (decide _) as [[? _]|_]; [contradiction | reflexivity].
Qed.

Lemma matrixSet_id m r k c line :
  m !! r = Some line -> line !! k = Some c -> matrixSet m r k c = m.
Proof.
  intros Hline Hc. unfold matrixSet. rewrite Hline. cbn.
  rewrite (list_insert_id line k c Hc). apply list_insert_id, Hline.
Qed.

Lemma matrixSet_overwrite m r k c c' :
  matrixSet (matrixSet m r k c') r k c = matrixSet m r k c.
Proof.
  unfold matrixSet at 1. rewrite matrixSet_lookup.
  destruct (decide (r = r)) as [_|]; [|contradiction].
  unfold matrixSet. rewrite list_insert_insert_eq.
  destruct (m !! r) as [line|]; cbn; rewrite ?list_insert_insert_eq; reflexivity.
Qed.

Lemma matrixSet_commute m r k c r' k' c' :
  r <> r' \/ k <> k' ->
  matrixSet (matrixSet m r' k' c') r k c = matrixSet (matrixSet m r k c) r' k' c'.
Proof.
  intros Hne. unfold matrixSet at 1 3. rewrite !matrixSet_lookup.
  destruct (decide (r' = r)) as [->|Hr].
  - destruct (decide (r = r)) as [_|]; [|contradiction].
    assert (Hk : k <> k') by tauto.
    unfold matrixSet. rewrite !list_insert_insert_eq.
    destruct (m !! r) as [line|]; cbn; [|reflexivity].
    rewrite list_insert_insert_ne by exact Hk. reflexivity.
  - destruct (decide (r = r')) as [->|_]; [contradiction|].
    unfold matrixSet. apply list_insert_insert_ne. congruence.
Qed.

(** ** Swapping *)

Lemma moveTo_back c r k : moveTo (row c) (column c) (moveTo r k c) = c.
Proof. destruct c. reflexivity. Qed.

Lemma lookup_default {A} (l : list A) (i : nat) (d : A) :
  i < length l -> l !! i = Some (default d (l !! i)).
Proof.
  intros Hlt. destruct (lookup_lt_is_Some_2 l i Hlt) as [x Hx].
  rewrite Hx. reflexivity.
Qed.

Lemma deref_lookup s (c : ref) :
  c < length (heap s) -> heap s !! c = Some (deref s c).
Proof. apply lookup_default. Qed.

(** Two different live cells: each takes the other's position, and the
    board records both. *)
Lemma swapCells_unfold firstCell secondCell s :
  firstCell <> secondCell ->
  firstCell < length (heap s) -> secondCell < length (heap s) ->
  swapCells firstCell secondCell s =
  let a := deref s firstCell in
  let b := deref s secondCell in
  with_board
    (matrixSet (matrixSet (board s) (row b) (column b) firstCell)
       (row a) (column a) secondCell)
    (with_heap
       (<[secondCell := moveTo (row a) (column a) b]>
          (<[firstCell := moveTo (row b) (column b) a]> (heap s))) s).
Proof.
  intros Hne Hf Hg. unfold swapCells. cbv zeta.
  set (a := deref s firstCell). set (b := deref s secondCell).
  set (s1 := assign (set_row (row b)) firstCell s).
  assert (H1g : deref s1 secondCell = b) by (apply deref_assign_ne, Hne).
  assert (H1f : deref s1 firstCell = set_row (row b) a) by (apply deref_assign_eq, Hf).
  rewrite H1g.
  set (s2 := assign (set_column (column b)) firstCell s1).
  assert (H2 : heap s2 = <[firstCell := moveTo (row b) (column b) a]> (heap s)).
  { unfold s2. rewrite heap_assign, H1f. unfold s1. rewrite heap_assign.
    apply list_insert_insert_eq. }
  set (s3 := assign (set_row (row a)) secondCell s2).
  assert (H2g : deref s2 secondCell = b).
  { unfold s2. rewrite deref_assign_ne by exact Hne. exact H1g. }
  assert (H3g : deref s3 secondCell = set_row (row a) b).
  { unfold s3. rewrite deref_assign_eq.
    - rewrite H2g. reflexivity.
    - rewrite H2, length_insert. exact Hg. }
  set (s4 := assign (set_column (column a)) secondCell s3).
  assert (H4 : heap s4 = <[secondCell := moveTo (row a) (column a) b]>
                           (<[firstCell := moveTo (row b) (column b) a]> (heap s))).
  { unfold s4. rewrite heap_assign, H3g. unfold s3. rewrite heap_assign.
    rewrite list_insert_insert_eq, H2. reflexivity. }
  assert (H4f : deref s4 firstCell = moveTo (row b) (column b) a).
  { unfold deref. rewrite H4, list_lookup_insert_ne by congruence.
    rewrite list_lookup_insert_eq by exact Hf. reflexivity. }
  assert (H4g : deref s4 secondCell = moveTo (row a) (column a) b).
  { unfold deref. rewrite H4, list_lookup_insert_eq; [reflexivity|].
    rewrite length_insert. exact Hg. }
  rewrite H4f. rewrite deref_setCellAt, H4g.
  unfold setCellAt, with_board, with_heap. cbn [heap board score moves isGameOver draws].
  rewrite H4. reflexivity.
Qed.

Lemma wf_line s r : wf s -> r < size -> length (default [] (board s !! r)) = size.
Proof.
  intros Hwf Hr. destruct (board s !! r) as [line|] eqn:Hline.
  - apply (wf_columns s Hwf r line Hline).
  - apply lookup_ge_None in Hline. rewrite (wf_rows s Hwf) in Hline. lia.
Qed.

Lemma wf_lookup s r k :
  wf s -> r < size -> k < size ->
  exists line, board s !! r = Some line /\ line !! k = Some (cellAt s r k).
Proof.
  intros Hwf Hr Hk. pose proof (wf_line s r Hwf Hr) as Hlen.
  unfold cellAt, matrixGet. destruct (board s !! r) as [line|] eqn:Hline.
  - exists line. split; [reflexivity|]. cbn in *.
    apply lookup_default. lia.
  - apply lookup_ge_None in Hline. rewrite (wf_rows s Hwf) in Hline. lia.
Qed.

Lemma deref_swapCells firstCell secondCell s c :
  firstCell <> secondCell ->
  firstCell < length (heap s) -> secondCell < length (heap s) ->
  deref (swapCells firstCell secondCell s) c =
  if decide (c = firstCell)
  then moveTo (row (deref s secondCell)) (column (deref s secondCell)) (deref s firstCell)
  else if decide (c = secondCell)
  then moveTo (row (deref s firstCell)) (column (deref s firstCell)) (deref s secondCell)
  else deref s c.
Proof.
  intros Hne Hf Hg. rewrite swapCells_unfold by assumption. cbv zeta.
  unfold deref at 1. cbn [heap with_board with_heap].
  destruct (decide (c = firstCell)) as [->|Hcf].
  - rewrite list_lookup_insert_ne by congruence.
    rewrite list_lookup_insert_eq by exact Hf. reflexivity.
  - destruct (decide (c = secondCell)) as [->|Hcg].
    + rewrite list_lookup_insert_eq by (rewrite length_insert; exact Hg). reflexivity.
    + rewrite !list_lookup_insert_ne by congruence. reflexivity.
Qed.

Lemma cellAt_swapCells firstCell secondCell s r k :
  wf s -> onBoard s firstCell -> onBoard s secondCell -> firstCell <> secondCell ->
  cellAt (swapCells firstCell secondCell s) r k =
  if decide (row (deref s firstCell) = r /\ column (deref s firstCell) = k)
  then secondCell
  else if decide (row (deref s secondCell) = r /\ column (deref s secondCell) = k)
  then firstCell
  else cellAt s r k.
Proof.
  intros Hwf Hf Hg Hne.
  rewrite swapCells_unfold
    by (try assumption; apply onBoard_live; assumption).
  cbv zeta. unfold cellAt. cbn [board with_board with_heap].
  destruct Hf as (Hfr & Hfk & _). destruct Hg as (Hgr & Hgk & _).
  rewrite matrixGet_set.
  - destruct (decide _); [reflexivity|]. rewrite matrixGet_set.
    + reflexivity.
    + rewrite (wf_rows s Hwf). assumption.
    + rewrite wf_line by assumption. assumption.
  - rewrite matrixSet_length, (wf_rows s Hwf). assumption.
  - rewrite matrixSet_lookup. destruct (decide _).
    + destruct (board s !! row (deref s firstCell)) as [line|] eqn:Hline.
      * cbn. rewrite length_insert.
        rewrite (wf_columns s Hwf _ _ Hline). assumption.
      * apply lookup_ge_None in Hline. rewrite (wf_rows s Hwf) in Hline. lia.
    + rewrite wf_line by assumption. assumption.
Qed.

(** Swapping the same two cells twice restores the scene. *)
Lemma swapCells_involutive firstCell secondCell s :
  wf s -> onBoard s firstCell -> onBoard s secondCell -> firstCell <> secondCell ->
  swapCells firstCell secondCell (swapCells firstCell secondCell s) = s.
Proof.
  intros Hwf Hf Hg Hne.
  pose proof (onBoard_live s _ Hwf Hf) as Hlf.
  pose proof (onBoard_live s _ Hwf Hg) as Hlg.
  set (s1 := swapCells firstCell secondCell s).
  assert (Hlen : length (heap s1) = length (heap s)).
  { unfold s1. rewrite swapCells_unfold by assumption. cbv zeta.
    cbn [heap with_board with_heap]. rewrite !length_insert. reflexivity. }
  set (a := deref s firstCell). set (b := deref s secondCell).
  assert (H1f : deref s1 firstCell = moveTo (row b) (column b) a).
  { unfold s1. rewrite deref_swapCells by assumption.
    destruct (decide _); [reflexivity | contradiction]. }
  assert (H1g : deref s1 secondCell = moveTo (row a) (column a) b).
  { unfold s1. rewrite deref_swapCells by assumption.
    destruct (decide _); [congruence|].
    destruct (decide _); [reflexivity | contradiction]. }
  rewrite (swapCells_unfold firstCell secondCell s1) by (rewrite ?Hlen; assumption).
  cbv zeta. rewrite H1f, H1g.
  change (row (moveTo ?r ?k ?c)) with r. change (column (moveTo ?r ?k ?c)) with k.
  replace (moveTo (row a) (column a) (moveTo (row b) (column b) a)) with a
    by (symmetry; apply moveTo_back).
  replace (moveTo (row b) (column b) (moveTo (row a) (column a) b)) with b
    by (symmetry; apply moveTo_back).
  unfold s1. rewrite swapCells_unfold by assumption. cbv zeta. fold a b.
  destruct Hf as (Hfr & Hfk & Hfc). destruct Hg as (Hgr & Hgk & Hgc).
  fold a in Hfr, Hfk, Hfc. fold b in Hgr, Hgk, Hgc.
  destruct (wf_lookup s (row a) (column a) Hwf Hfr Hfk) as (la & Hla & Hca).
  destruct (wf_lookup s (row b) (column b) Hwf Hgr Hgk) as (lb & Hlb & Hcb).
  rewrite Hfc in Hca. rewrite Hgc in Hcb.
  assert (Hpos : row a <> row b \/ column a <> column b).
  { destruct (decide (row a = row b)) as [Hr|]; [|auto].
    destruct (decide (column a = column b)) as [Hk|]; [|auto].
    exfalso. apply Hne. rewrite <- Hfc, <- Hgc, Hr, Hk. reflexivity. }
  unfold with_board, with_heap. cbn [heap board score moves isGameOver draws].
  destruct s as [h m sc mv go dr]. cbn [heap board score moves isGameOver draws] in *.
  f_equal.
  - rewrite (list_insert_insert_ne _ secondCell firstCell) by congruence.
    rewrite list_insert_insert_eq.
    rewrite (list_insert_insert_ne _ firstCell secondCell) by congruence.
    rewrite list_insert_insert_eq.
    rewrite (list_insert_id h firstCell a) by (apply (deref_lookup (mkScene h m sc mv go dr)); exact Hlf).
    apply list_insert_id. apply (deref_lookup (mkScene h m sc mv go dr)). exact Hlg.
  - rewrite (matrixSet_overwrite _ (row a) (column a)).
    rewrite (matrixSet_commute _ (row a) (column a) firstCell (row b) (column b) firstCell)
      by exact Hpos.
    rewrite (matrixSet_id m (row a) (column a) firstCell la Hla Hca).
    rewrite matrixSet_overwrite.
    apply (matrixSet_id m (row b) (column b) secondCell lb Hlb Hcb).
Qed.

(** ** The no-moves oracle restores the scene *)

Lemma fold_left_invariant {A B} (P : A -> Prop) (f : A -> B -> A) l a :
  (forall x a', In x l -> P a' -> P (f a' x)) -> P a -> P (fold_left f l a).
Proof.
  revert a. induction l as [|x l IH]; intros a Hf Ha; cbn.
  - exact Ha.
  - apply IH.
    + intros y a' Hy. apply Hf. right. exact Hy.
    + apply Hf; [left; reflexivity | exact Ha].
Qed.

Lemma trySwap_restores cell other st :
  wf (fst st) -> onBoard (fst st) cell -> onBoard (fst st) other -> cell <> other ->
  fst (trySwap cell other st) = fst st.
Proof.
  destruct st as [s winningMoves]. cbn [fst]. intros Hwf Hc Ho Hne.
  unfold trySwap. cbn [fst]. apply swapCells_involutive; assumption.
Qed.

Lemma trySwap_twice_restores s r k st :
  wf s -> r + 1 < size -> k + 1 < size -> fst st = s ->
  fst (trySwap (cellAt s r k) (cellAt s (r + 1) k)
         (trySwap (cellAt s r k) (cellAt s r (k + 1)) st)) = s.
Proof.
  intros Hwf Hr Hk Hst.
  assert (Hcell : onBoard s (cellAt s r k))
    by (apply onBoard_cellAt; [assumption | lia | lia]).
  assert (Hright : onBoard s (cellAt s r (k + 1)))
    by (apply onBoard_cellAt; [assumption | lia | lia]).
  assert (Hdown : onBoard s (cellAt s (r + 1) k))
    by (apply onBoard_cellAt; [assumption | lia | lia]).
  assert (H1 : fst (trySwap (cellAt s r k) (cellAt s r (k + 1)) st) = s).
  { rewrite trySwap_restores; rewrite ?Hst; try assumption; try reflexivity.
    intros Heq. apply cellAt_inj in Heq; [lia | assumption | lia ..]. }
  rewrite trySwap_restores; rewrite ?H1; try assumption; try reflexivity.
  intros Heq. apply cellAt_inj in Heq; [lia | assumption | lia ..].
Qed.

(** C8.  [getWinningMoves] hands the scene back as it found it: the store
    of cells (each cell's row, column, colour, empty flag and power-up),
    the board and the counters are those of the start. *)
Theorem getWinningMoves_restores s :
  wf s -> fst (getWinningMoves s) = s.
Proof.
  intros Hwf. unfold getWinningMoves.
  apply (fold_left_invariant (fun st => fst st = s)); [|reflexivity].
  intros r st Hr Hst. apply in_seq in Hr.
  apply (fold_left_invariant (fun st => fst st = s)); [|exact Hst].
  intros k st' Hk Hst'. apply in_seq in Hk. cbv zeta.
  rewrite Hst'. apply trySwap_twice_restores; [assumption | lia | lia | assumption].
Qed.

(** ** Swapping keeps scenes well-formed *)

Lemma matrixSet_lines m r k c n :
  (forall r' line, m !! r' = Some line -> length line = n) ->
  forall r' line, matrixSet m r k c !! r' = Some line -> length line = n.
Proof.
  intros Hm r' line. rewrite matrixSet_lookup. destruct (decide (r = r')) as [<-|_].
  - destruct (m !! r) as [line0|] eqn:Hline0; cbn; [|discriminate].
    intros [= <-]. rewrite length_insert. apply (Hm r), Hline0.
  - apply Hm.
Qed.

Lemma length_heap_swapCells firstCell secondCell s :
  length (heap (swapCells firstCell secondCell s)) = length (heap s).
Proof.
  unfold swapCells. cbv zeta. unfold setCellAt, with_board.
  cbn [heap]. rewrite !length_heap_assign. reflexivity.
Qed.

Lemma wf_swapCells firstCell secondCell s :
  wf s -> onBoard s firstCell -> onBoard s secondCell -> firstCell <> secondCell ->
  wf (swapCells firstCell secondCell s).
Proof.
  intros Hwf Hf Hg Hne.
  pose proof (onBoard_live s _ Hwf Hf) as Hlf.
  pose proof (onBoard_live s _ Hwf Hg) as Hlg.
  assert (Hcase : forall r k, r < size -> k < size ->
            cellAt (swapCells firstCell secondCell s) r k
              < length (heap (swapCells firstCell secondCell s))
            /\ row (deref (swapCells firstCell secondCell s)
                      (cellAt (swapCells firstCell secondCell s) r k)) = r
            /\ column (deref (swapCells firstCell secondCell s)
                         (cellAt (swapCells firstCell secondCell s) r k)) = k).
  { intros r k Hr Hk. rewrite length_heap_swapCells.
    rewrite cellAt_swapCells by assumption.
    destruct (decide (row (deref s firstCell) = r /\ column (deref s firstCell) = k))
      as [[Hfr Hfk]|Hnf].
    - rewrite deref_swapCells by assumption.
      destruct (decide (secondCell = firstCell)); [congruence|].
      destruct (decide (secondCell = secondCell)); [|contradiction]. auto.
    - destruct (decide (row (deref s secondCell) = r /\ column (deref s secondCell) = k))
        as [[Hgr Hgk]|Hng].
      + rewrite deref_swapCells by assumption.
        destruct (decide (firstCell = firstCell)); [|contradiction]. auto.
      + rewrite deref_swapCells by assumption.
        destruct (decide (cellAt s r k = firstCell)) as [Heq|_].
        { exfalso. apply Hnf. rewrite <- Heq.
          split; [apply (wf_row s Hwf) | apply (wf_column s Hwf)]; assumption. }
        destruct (decide (cellAt s r k = secondCell)) as [Heq|_].
        { exfalso. apply Hng. rewrite <- Heq.
          split; [apply (wf_row s Hwf) | apply (wf_column s Hwf)]; assumption. }
        split; [apply (wf_live s Hwf); assumption|].
        split; [apply (wf_row s Hwf) | apply (wf_column s Hwf)]; assumption. }
  constructor.
  - rewrite swapCells_unfold by assumption. cbv zeta. cbn [board with_board].
    rewrite !matrixSet_length. apply (wf_rows s Hwf).
  - rewrite swapCells_unfold by assumption. cbv zeta. cbn [board with_board with_heap].
    apply matrixSet_lines, matrixSet_lines. apply (wf_columns s Hwf).
  - intros r k Hr Hk. apply Hcase; assumption.
  - intros r k Hr Hk. apply Hcase; assumption.
  - intros r k Hr Hk. apply Hcase; assumption.
Qed.

(** Swapping changes positions only. *)
Lemma content_swapCells firstCell secondCell s c :
  color (deref (swapCells firstCell secondCell s) c) = color (deref s c)
  /\ empty (deref (swapCells firstCell secondCell s) c) = empty (deref s c)
  /\ powerup (deref (swapCells firstCell secondCell s) c) = powerup (deref s c).
Proof.
  unfold swapCells. cbv zeta. rewrite !deref_setCellAt. repeat split.
  - rewrite !(field_assign color) by reflexivity. reflexivity.
  - rewrite !(field_assign empty) by reflexivity. reflexivity.
  - rewrite !(field_assign powerup) by reflexivity. reflexivity.
Qed.

(** ** Gravity *)

(** The rows [getLowestEmptyCellBelow] visits: from the bottom row up to
    the row below the cell. *)
Lemma rows_below j n :
  filter (fun r => j < r) (rev (seq 0 n)) = rev (seq (j + 1) (n - (j + 1))).
Proof.
  induction n as [|n IH]; [reflexivity|].
  rewrite seq_S, rev_app_distr. cbn [rev app Nat.add].
  rewrite filter_cons. destruct (decide (j < n)) as [Hlt|Hge].
  - replace (S n - (j + 1)) with (S (n - (j + 1))) by lia.
    rewrite seq_S, rev_app_distr. cbn [rev app]. rewrite IH.
    f_equal. lia.
  - rewrite IH. replace (S n - (j + 1)) with 0 by lia.
    replace (n - (j + 1)) with 0 by lia. reflexivity.
Qed.

(** Scanning rows [a + len - 1] down to [a]: the first hit is the lowest
    row that passes the test. *)
Lemma find_scan_hit {A} (f : nat -> A) (P : A -> bool) a len low :
  a <= low < a + len -> P (f low) = true ->
  (forall r, low < r < a + len -> P (f r) = false) ->
  find P (map f (rev (seq a len))) = Some (f low).
Proof.
  induction len as [|len IH]; intros Hlow Hhit Hmiss; [lia|].
  rewrite seq_S, rev_app_distr. cbn [rev app map find].
  destruct (decide (low = a + len)) as [->|Hne].
  - rewrite Hhit. reflexivity.
  - rewrite Hmiss by lia. apply IH; [lia | assumption|].
    intros r Hr. apply Hmiss. lia.
Qed.

Lemma find_scan_miss {A} (f : nat -> A) (P : A -> bool) a len :
  (forall r, a <= r < a + len -> P (f r) = false) ->
  find P (map f (rev (seq a len))) = None.
Proof.
  induction len as [|len IH]; intros Hmiss; [reflexivity|].
  rewrite seq_S, rev_app_distr. cbn [rev app map find].
  rewrite Hmiss by lia. apply IH. intros r Hr. apply Hmiss. lia.
Qed.

Lemma getLowestEmptyCellBelow_rows s cell :
  getLowestEmptyCellBelow s cell =
  find (fun belowCell => empty (deref s belowCell))
    (map (fun r => cellAt s r (column (deref s cell)))
       (rev (seq (row (deref s cell) + 1) (size - (row (deref s cell) + 1))))).
Proof. unfold getLowestEmptyCellBelow. rewrite rows_below. reflexivity. Qed.

Lemma makeCellsFall_fallStep s :
  makeCellsFall s =
  forEach (seq 0 size) (fun k => forEach (rev (seq 0 size)) (fallStep k)) s.
Proof. reflexivity. Qed.

Lemma sameContent_refl s : sameContent s s.
Proof. split; [reflexivity | intros c; auto]. Qed.

Lemma sameContent_trans s0 s1 s2 :
  sameContent s0 s1 -> sameContent s1 s2 -> sameContent s0 s2.
Proof.
  intros [Hl1 H1] [Hl2 H2]. split; [congruence|].
  intros c. destruct (H1 c) as (? & ? & ?). destruct (H2 c) as (? & ? & ?).
  repeat split; congruence.
Qed.

Lemma sameContent_swapCells firstCell secondCell s :
  sameContent s (swapCells firstCell secondCell s).
Proof.
  split; [apply length_heap_swapCells | intros c; apply content_swapCells].
Qed.

Lemma seq_head j n : j < n -> seq j (n - j) = j :: seq (S j) (n - S j).
Proof. intros Hlt. replace (n - j) with (S (n - S j)) by lia. reflexivity. Qed.

Lemma falling_start s k : wf s -> falling s s k size.
Proof.
  intros Hwf. constructor; auto using sameContent_refl.
  exists size. split; [lia|]. split; [intros r Hr; lia|].
  rewrite Nat.sub_diag. reflexivity.
Qed.

Lemma settled_nonempty s0 s k j m r :
  sameContent s0 s ->
  map (fun r => cellAt s r k) (seq m (size - m))
  = List.filter (nonEmptyIn s0) (map (fun r => cellAt s0 r k) (seq j (size - j))) ->
  m <= r < size -> empty (deref s (cellAt s r k)) = false.
Proof.
  intros [_ Hcontent] Hmap Hr.
  assert (Hin : In (cellAt s r k)
                  (List.filter (nonEmptyIn s0)
                     (map (fun r => cellAt s0 r k) (seq j (size - j))))).
  { rewrite <- Hmap. apply in_map_iff. exists r. split; [reflexivity|].
    apply in_seq. lia. }
  apply List.filter_In in Hin as [_ Hne]. unfold nonEmptyIn in Hne.
  destruct (Hcontent (cellAt s r k)) as (_ & -> & _).
  apply negb_true_iff, Hne.
Qed.

Lemma falling_step s0 s k j :
  k < size -> j < size -> falling s0 s k (S j) -> falling s0 (fallStep k j s) k j.
Proof.
  intros Hk Hj [Hwf Hcontent Hcols Habove (m & Hm & Hempty & Hmap)].
  set (cell := cellAt s j k).
  assert (Hcell0 : cellAt s0 j k = cell) by (symmetry; apply Habove; lia).
  assert (Hon : onBoard s cell) by (apply onBoard_cellAt; assumption).
  assert (Hrow : row (deref s cell) = j) by (apply (wf_row s Hwf); assumption).
  assert (Hcol : column (deref s cell) = k) by (apply (wf_column s Hwf); assumption).
  assert (Hfull : forall r, m <= r < size -> empty (deref s (cellAt s r k)) = false)
    by (intros r Hr; eapply settled_nonempty; eassumption).
  assert (Hcell_content : empty (deref s0 cell) = empty (deref s cell)).
  { destruct Hcontent as [_ Hc]. destruct (Hc cell) as (_ & -> & _). reflexivity. }
  unfold fallStep. fold cell. rewrite getLowestEmptyCellBelow_rows, Hrow, Hcol.
  destruct (empty (deref s cell)) eqn:Hempty_cell.
  - (* the cell is empty: it stays *)
    assert (Hsame : match find (fun belowCell => empty (deref s belowCell))
                            (map (fun r => cellAt s r k)
                               (rev (seq (j + 1) (size - (j + 1))))) with
                    | Some lowestEmptyCell =>
                        if negb true then swapCells cell lowestEmptyCell s else s
                    | None => s
                    end = s) by (destruct (find _ _); reflexivity).
    rewrite Hsame. constructor; try assumption.
    + intros r Hr. apply Habove. lia.
    + exists m. split; [lia|]. split.
      * intros r Hr. destruct (decide (r = j)) as [->|Hne]; [exact Hempty_cell|].
        apply Hempty. lia.
      * rewrite Hmap, (seq_head j size Hj). cbn [map List.filter].
        unfold nonEmptyIn at 2. rewrite Hcell0, Hcell_content. reflexivity.
  - destruct (decide (m = S j)) as [->|Hgap].
    + (* nothing empty below: it stays *)
      rewrite find_scan_miss.
      2:{ intros r Hr. apply Hfull. lia. }
      constructor; try assumption.
      * intros r Hr. apply Habove. lia.
      * exists j. split; [lia|]. split; [intros r Hr; lia|].
        rewrite !(seq_head j size Hj). cbn [map List.filter].
        unfold nonEmptyIn at 1. rewrite Hcell0, Hcell_content. cbn [negb].
        fold cell. rewrite Hmap. reflexivity.
    + (* it falls into the lowest empty cell below *)
      set (low := cellAt s (m - 1) k).
      rewrite (find_scan_hit _ _ (j + 1) (size - (j + 1)) (m - 1)).
      2:{ lia. }
      2:{ apply Hempty. lia. }
      2:{ intros r Hr. apply Hfull. lia. }
      fold low. cbn [negb].
      assert (Hlow : onBoard s low) by (apply onBoard_cellAt; [assumption | lia | lia]).
      assert (Hlrow : row (deref s low) = m - 1) by (apply (wf_row s Hwf); lia).
      assert (Hlcol : column (deref s low) = k) by (apply (wf_column s Hwf); lia).
      assert (Hne : cell <> low).
      { intros Heq. apply cellAt_inj in Heq; [lia | assumption | lia ..]. }
      assert (Hat : forall r k',
                cellAt (swapCells cell low s) r k' =
                if decide (j = r /\ k = k') then low
                else if decide (m - 1 = r /\ k = k') then cell
                else cellAt s r k').
      { intros r k'. rewrite cellAt_swapCells by assumption.
        rewrite Hrow, Hcol, Hlrow, Hlcol. reflexivity. }
      constructor.
      * apply wf_swapCells; assumption.
      * eapply sameContent_trans; [exact Hcontent | apply sameContent_swapCells].
      * intros r k' Hk'. rewrite Hat.
        destruct (decide _) as [[_ ?]|_]; [congruence|].
        destruct (decide _) as [[_ ?]|_]; [congruence|]. apply Hcols, Hk'.
      * intros r Hr. rewrite Hat.
        destruct (decide _) as [[? _]|_]; [lia|].
        destruct (decide _) as [[? _]|_]; [lia|]. apply Habove. lia.
      * exists (m - 1). split; [lia|]. split.
        -- intros r Hr. rewrite Hat.
           destruct (content_swapCells cell low s
                       (if decide (j = r /\ k = k) then low
                        else if decide (m - 1 = r /\ k = k) then cell
                        else cellAt s r k)) as (_ & -> & _).
           destruct (decide _) as [_|Hn]; [apply Hempty; lia|].
           destruct (decide _) as [[? _]|_]; [lia|]. apply Hempty. lia.
        -- rewrite (seq_head (m - 1) size) by lia.
           replace (S (m - 1)) with m by lia. cbn [map].
           rewrite Hat. destruct (decide _) as [[? _]|_]; [lia|].
           destruct (decide _) as [_|Hn]; [|exfalso; apply Hn; auto].
           rewrite (seq_head j size Hj). cbn [map List.filter].
           unfold nonEmptyIn at 1. rewrite Hcell0, Hcell_content. cbn [negb].
           f_equal. rewrite <- Hmap. apply map_ext_in. intros r Hr.
           apply in_seq in Hr. rewrite Hat.
           destruct (decide _) as [[? _]|_]; [lia|].
           destruct (decide _) as [[? _]|_]; [lia|]. reflexivity.
Qed.

Lemma falling_loop s0 k n s :
  k < size -> n <= size -> falling s0 s k n ->
  falling s0 (forEach (rev (seq 0 n)) (fallStep k) s) k 0.
Proof.
  intros Hk. revert s. induction n as [|n IH]; intros s Hn Hs; [exact Hs|].
  rewrite seq_S, rev_app_distr. cbn [rev app Nat.add]. rewrite forEach_cons.
  apply IH; [lia|]. apply falling_step; [assumption | lia | assumption].
Qed.

Lemma filter_nonEmptyIn_ext s0 s l :
  sameContent s0 s -> List.filter (nonEmptyIn s) l = List.filter (nonEmptyIn s0) l.
Proof.
  intros [_ Hc]. apply List.filter_ext. intros c. unfold nonEmptyIn.
  destruct (Hc c) as (_ & -> & _). reflexivity.
Qed.

Lemma fallen_step s0 s n :
  n < size -> fallen s0 s n ->
  fallen s0 (forEach (rev (seq 0 size)) (fallStep n) s) (S n).
Proof.
  intros Hn [Hwf Hcontent Htodo Hdone].
  pose proof (falling_loop s n size s Hn (Nat.le_refl _) (falling_start s n Hwf))
    as [Hwf' Hcontent' Hcols' _ (m & Hm & Hempty & Hmap)].
  set (s' := forEach (rev (seq 0 size)) (fallStep n) s) in *.
  constructor.
  - exact Hwf'.
  - eapply sameContent_trans; eassumption.
  - intros r k Hk. rewrite Hcols' by lia. apply Htodo. lia.
  - intros k Hk. destruct (decide (k = n)) as [->|Hne].
    + exists m. split; [lia|]. split; [intros r Hr; apply Hempty; lia|].
      rewrite Hmap, Nat.sub_0_r. rewrite (filter_nonEmptyIn_ext s0 s) by assumption.
      unfold columnCells. f_equal. apply map_ext. intros r. apply Htodo. lia.
    + destruct (Hdone k ltac:(lia)) as (mk & Hmk & Hemptyk & Hmapk).
      exists mk. split; [assumption|]. split.
      * intros r Hr. rewrite Hcols' by assumption.
        destruct Hcontent' as [_ Hc]. destruct (Hc (cellAt s r k)) as (_ & -> & _).
        apply Hemptyk, Hr.
      * rewrite <- Hmapk. apply map_ext. intros r. apply Hcols'. assumption.
Qed.

Lemma fallen_loop s0 n s :
  n <= size -> fallen s0 s 0 ->
  fallen s0
    (forEach (seq 0 n) (fun k => forEach (rev (seq 0 size)) (fallStep k)) s) n.
Proof.
  intros Hn Hs. induction n as [|n IH]; [exact Hs|].
  rewrite seq_S, forEach_app. cbn [Nat.add forEach fold_left].
  apply fallen_step; [lia|]. apply IH. lia.
Qed.

Lemma makeCellsFall_fallen s : wf s -> fallen s (makeCellsFall s) size.
Proof.
  intros Hwf. rewrite makeCellsFall_fallStep. apply fallen_loop; [reflexivity|].
  constructor; auto using sameContent_refl. intros k Hk. lia.
Qed.

Lemma filter_all_false {A} (P : A -> bool) l :
  (forall x, In x l -> P x = false) -> List.filter P l = [].
Proof.
  induction l as [|x l IH]; intros Hl; [reflexivity|]. cbn.
  rewrite Hl by (left; reflexivity). apply IH. intros y Hy. apply Hl. right. exact Hy.
Qed.

Lemma filter_filter_same {A} (P : A -> bool) l :
  List.filter P (List.filter P l) = List.filter P l.
Proof.
  induction l as [|x l IH]; [reflexivity|]. cbn.
  destruct (P x) eqn:Hx.
  - cbn. rewrite Hx. f_equal. exact IH.
  - exact IH.
Qed.

(** C6.  After [makeCellsFall] every column shows its empty cells in a
    block at the top and below it the cells that are not empty, which are
    the non-empty cells the column had before, in the order (top to
    bottom) they had before; and gravity changes no cell's colour, empty
    flag or power-up. *)
Theorem makeCellsFall_compacts s k :
  wf s -> k < size ->
  (exists m, m <= size
     /\ (forall r, r < m -> empty (deref (makeCellsFall s) (cellAt (makeCellsFall s) r k)) = true)
     /\ (forall r, m <= r < size ->
           empty (deref (makeCellsFall s) (cellAt (makeCellsFall s) r k)) = false))
  /\ List.filter (nonEmptyIn (makeCellsFall s)) (columnCells (makeCellsFall s) k)
     = List.filter (nonEmptyIn s) (columnCells s k)
  /\ sameContent s (makeCellsFall s).
Proof.
  intros Hwf Hk. destruct (makeCellsFall_fallen s Hwf) as [_ Hcontent _ Hdone].
  destruct (Hdone k Hk) as (m & Hm & Hempty & Hmap).
  set (s' := makeCellsFall s) in *.
  assert (Hfull : forall r, m <= r < size -> empty (deref s' (cellAt s' r k)) = false).
  { intros r Hr. apply (settled_nonempty s s' k 0 m r Hcontent); [|exact Hr].
    rewrite Nat.sub_0_r. exact Hmap. }
  split; [|split].
  - exists m. auto.
  - unfold columnCells at 1.
    replace (seq 0 size) with (seq 0 m ++ seq m (size - m))
      by (rewrite <- seq_app; f_equal; lia).
    rewrite map_app, List.filter_app, Hmap.
    rewrite !(filter_nonEmptyIn_ext s s') by assumption.
    rewrite filter_filter_same, filter_all_false; [reflexivity|].
    intros c Hc. apply in_map_iff in Hc as (r & <- & Hr). apply in_seq in Hr.
    unfold nonEmptyIn. destruct Hcontent as [_ Hc].
    destruct (Hc (cellAt s' r k)) as (_ & <- & _). rewrite Hempty by lia. reflexivity.
  - exact Hcontent.
Qed.

(** ** Power-up creation *)











(** ** Activation keeps scenes well-formed *)









(** ** Rockets *)









(** ** The move counter *)























(** ** The claims on concrete boards *)







(** C4 at a failing input.  Three horizontal rockets in a line carry the
    same colour, the name of their type: [getExplodingChains] returns them
    as a chain, although each holds a power-up and [shouldExplode] is
    false for each. *)
Theorem powerups_form_a_chain :
  [cellAt threeRocketsBoard 4 2; cellAt threeRocketsBoard 4 3; cellAt threeRocketsBoard 4 4]
    ∈ getExplodingChains threeRocketsBoard
  /\ Forall (fun c => powerup (deref threeRocketsBoard c) = Some horizontal_rocket
                      /\ shouldExplode threeRocketsBoard c = false)
       [cellAt threeRocketsBoard 4 2; cellAt threeRocketsBoard 4 3;
        cellAt threeRocketsBoard 4 4].
Proof.
  split.
  - apply list_elem_of_In. vm_compute. tauto.
  - repeat constructor.
Qed.

(** The half of C4 that holds: no cell [getCellsToDestroy] returns holds a
    power-up. *)
Lemma getCellsToDestroy_no_powerup s c :
  c ∈ getCellsToDestroy s -> powerup (deref s c) = None.
Proof.
  unfold getCellsToDestroy. rewrite list_elem_of_In, List.filter_In. intros [_ Hc].
  apply andb_true_iff in Hc as [_ Hc].
  unfold hasPowerup in Hc. destruct (powerup (deref s c)); [discriminate | reflexivity].
Qed.

(** C5 at a failing input.  On [lastRowBoard] the oracle finds no winning
    move, yet swapping the neighbouring cells of columns 2 and 3 of the
    last row makes the board explode: the loops of [getWinningMoves] stop
    before the last row and the last column, so the swaps inside them are
    never tried. *)
Theorem getWinningMoves_misses_last_row :
  wf lastRowBoard
  /\ boardShouldExplode lastRowBoard = false
  /\ snd (getWinningMoves lastRowBoard) = []
  /\ cellsAreNeighbours lastRowBoard (cellAt lastRowBoard 7 2) (cellAt lastRowBoard 7 3) = true
  /\ boardShouldExplode
       (swapCells (cellAt lastRowBoard 7 2) (cellAt lastRowBoard 7 3) lastRowBoard) = true.
Proof.
  split; [apply wfb_wf; vm_compute; reflexivity|].
  repeat split; vm_compute; reflexivity.
Qed.

Lemma makeCellsFall_compacts_witness :
  wf holesBoard /\ 0 < size
  /\ (exists m, m <= size
        /\ (forall r, r < m ->
              empty (deref (makeCellsFall holesBoard)
                       (cellAt (makeCellsFall holesBoard) r 0)) = true)
        /\ (forall r, m <= r < size ->
              empty (deref (makeCellsFall holesBoard)
                       (cellAt (makeCellsFall holesBoard) r 0)) = false))
  /\ List.filter (nonEmptyIn (makeCellsFall holesBoard))
       (columnCells (makeCellsFall holesBoard) 0)
     = List.filter (nonEmptyIn holesBoard) (columnCells holesBoard 0)
  /\ sameContent holesBoard (makeCellsFall holesBoard).
Proof.
  assert (Hwf : wf holesBoard) by (apply wfb_wf; vm_compute; reflexivity).
  assert (Hk : 0 < size) by (unfold size; lia).
  split; [exact Hwf|]. split; [exact Hk|].
  apply (makeCellsFall_compacts holesBoard 0 Hwf Hk).
Defined.

(** The column [empty, gem, empty, gem, ...] of [holesBoard]: the two
    emptied cells (objects 0 and 16) end on top, the gems below them in
    their order. *)
Example makeCellsFall_holesBoard :
  columnCells holesBoard 0 = [0; 8; 16; 24; 32; 40; 48; 56]
  /\ map (fun c => empty (deref holesBoard c)) (columnCells holesBoard 0)
     = [true; false; true; false; false; false; false; false]
  /\ columnCells (makeCellsFall holesBoard) 0 = [0; 16; 8; 24; 32; 40; 48; 56]
  /\ map (fun c => empty (deref (makeCellsFall holesBoard) c))
       (columnCells (makeCellsFall holesBoard) 0)
     = [true; true; false; false; false; false; false; false].
Proof. repeat split. Qed.


Lemma getWinningMoves_restores_witness :
  wf lastRowBoard /\ fst (getWinningMoves lastRowBoard) = lastRowBoard.
Proof.
  assert (Hwf : wf lastRowBoard) by (apply wfb_wf; vm_compute; reflexivity).
  split; [exact Hwf|]. apply (getWinningMoves_restores lastRowBoard Hwf).
Defined.


Lemma light_ball_without_target_witness :
  powerup (deref lonelyBallBoard 36) = Some light_ball
  /\ forallb (fun n => empty (deref lonelyBallBoard n) || hasPowerup (deref lonelyBallBoard n))
       (getNeighbors lonelyBallBoard 36) = true
  /\ deref (triggerPowerUp 36 lonelyBallBoard) 36
     = set_empty true (set_powerup None (deref lonelyBallBoard 36))
  /\ (forall c, c <> 36 ->
        deref (triggerPowerUp 36 lonelyBallBoard) c = deref lonelyBallBoard c)
  /\ board (triggerPowerUp 36 lonelyBallBoard) = board lonelyBallBoard.
Proof.
  split; [reflexivity|]. split; [reflexivity|].
  apply (light_ball_without_target lonelyBallBoard 36); reflexivity.
Defined.


(** ** The bounded loops run to their end *)

Lemma scanRun_ge s line i j0 fuel : j0 <= scanRun s line i j0 fuel.
Proof.
  revert j0. induction fuel as [|fuel IH]; intros j0; cbn [scanRun]; [lia|].
  destruct (_ && _); [|lia]. specialize (IH (j0 + 1)). lia.
Qed.

(** With [length line] turns the inner [while] of
    [getExplodingChainsOnLine] stops because its condition fails, not
    because the turns are used up. *)
Lemma scanRun_stops s line i j0 fuel :
  length line - j0 <= fuel ->
  (scanRun s line i j0 fuel <? length line)
  && color_eqb (color (deref s (default 0 (line !! scanRun s line i j0 fuel))))
               (color (deref s (default 0 (line !! i)))) = false.
Proof.
  revert j0. induction fuel as [|fuel IH]; intros j0 Hfuel; cbn [scanRun].
  - replace (j0 <? length line) with false; [reflexivity|].
    symmetry. apply Nat.ltb_ge. lia.
  - destruct ((j0 <? length line)
              && color_eqb (color (deref s (default 0 (line !! j0))))
                           (color (deref s (default 0 (line !! i))))) eqn:Hcond;
      [|exact Hcond].
    apply IH. lia.
Qed.

Lemma chainsFrom_S s line i fuel :
  chainsFrom s line i (S fuel) =
  if i <? length line then
    if explosionThreshold
       <=? length (slice i (scanRun s line i (i + 1) (length line)) line)
    then slice i (scanRun s line i (i + 1) (length line)) line
         :: chainsFrom s line (scanRun s line i (i + 1) (length line)) fuel
    else chainsFrom s line (i + 1) fuel
  else [].
Proof. reflexivity. Qed.

(** And so does the outer [while]: more turns change nothing. *)
Lemma chainsFrom_enough s line i fuel :
  length line - i <= fuel ->
  chainsFrom s line i (S fuel) = chainsFrom s line i fuel.
Proof.
  revert i. induction fuel as [|fuel IH]; intros i Hfuel.
  - cbn [chainsFrom]. replace (i <? length line) with false; [reflexivity|].
    symmetry. apply Nat.ltb_ge. lia.
  - rewrite (chainsFrom_S s line i (S fuel)), (chainsFrom_S s line i fuel).
    destruct (i <? length line) eqn:Hi; [|reflexivity].
    apply Nat.ltb_lt in Hi.
    pose proof (scanRun_ge s line i (i + 1) (length line)) as Hj.
    rewrite !IH by lia. reflexivity.
Qed.

(** The [while] of [refillBoard] stops at a cell that is not empty or at
    the bottom of the board. *)
Lemma numberOfEmptyCells_stops s k n fuel :
  size - n <= fuel ->
  (numberOfEmptyCells s k n fuel <? size)
  && empty (deref s (cellAt s (numberOfEmptyCells s k n fuel) k)) = false.
Proof.
  revert n. induction fuel as [|fuel IH]; intros n Hfuel; cbn [numberOfEmptyCells].
  - replace (n <? size) with false; [reflexivity|].
    symmetry. apply Nat.ltb_ge. lia.
  - destruct ((n <? size) && empty (deref s (cellAt s n k))) eqn:Hcond;
      [|exact Hcond].
    apply IH. lia.
Qed.
